(** * MegaHash: a 16-way digest trie with bucket chains

    A shallow embedding of [MegaHash.h] (MegaHash v1.0): the constants, the
    [Stats], [Response], [Index], [Bucket] and [Hash] classes, the three
    constructors, the bucket blob accessors, [bucketKeyEquals] and
    [digestKey].  The bodies of [store] and [fetch] are declared in the header
    but defined elsewhere; they are modelled from the specification and
    marked as such.

    Conventions: a C++ unsigned integer of width w is a [Z] in [0, 2^w), with
    every wrap-around written out; an [unsigned char *] is the list of bytes
    found from the pointer to the end of the allocation, so pointer arithmetic
    is [skipn]; a [Bucket *] chain is the list of its buckets in [next] order;
    a [Tag *] is [TNull], an index or a chain. *)

From Stdlib Require Import ZArith List Lia Bool.
From coqutil Require Import Byte Word.LittleEndianList.
Import ListNotations.
Local Open Scope Z_scope.

(** ** Constants of the header *)

(** sizeof(BH_KLEN_T), BH_KLEN_T being uint16_t. *)
Definition BH_KLEN_SIZE : Z := 2.
(** sizeof(BH_LEN_T), BH_LEN_T being uint32_t. *)
Definition BH_LEN_SIZE : Z := 4.
Definition BH_DIGEST_SIZE : Z := 8.
Definition BH_INDEX_SIZE : Z := 16.

Definition BH_ERR : Z := 0.
Definition BH_OK : Z := 1.
Definition BH_ADD : Z := 1.
Definition BH_REPLACE : Z := 2.

(** 'I' and 'B'. *)
Definition BH_SIG_INDEX : Z := 73.
Definition BH_SIG_BUCKET : Z := 66.

(** ** Fixed-width unsigned integers *)

(** Conversion to an unsigned integer type of [w] bits. *)
Definition to_uint (w : Z) (z : Z) : Z := z mod 2 ^ w.

Definition to_uint32 : Z -> Z := to_uint 32.
Definition to_uint64 : Z -> Z := to_uint 64.

(** The byte order of the machine: the header reads and writes its length
    fields and the 32-bit hash through casted pointers, in native order. *)
Inductive ByteOrder : Type :=
| LittleEndian
| BigEndian.

(** [*(uintN_t * )p = z] for an N = 8 * [n] bit integer: the bytes written. *)
Definition store_uint (order : ByteOrder) (n : nat) (z : Z) : list byte :=
  match order with
  | LittleEndian => le_split n z
  | BigEndian => rev (le_split n z)
  end.

(** [((uintN_t * )p)[0]] for an N = 8 * [n] bit integer. *)
Definition load_uint (order : ByteOrder) (n : nat) (p : list byte) : Z :=
  match order with
  | LittleEndian => le_combine (firstn n p)
  | BigEndian => le_combine (rev (firstn n p))
  end.

(** [a[i] = v] on an array of unsigned chars held as a list. *)
Fixpoint array_set {A : Type} (a : list A) (i : nat) (v : A) : list A :=
  match a, i with
  | [], _ => []
  | _ :: a', O => v :: a'
  | x :: a', S i' => x :: array_set a' i' v
  end.

(** [a[i]]. *)
Definition array_get (a : list Z) (i : nat) : Z := nth i a 0.

(** ** Hash::digestKey *)

(** One turn of the loop: [hash = ((hash << 5) + hash) + key[i]] on uint32_t. *)
Definition digest_step (hash : Z) (c : byte) : Z :=
  to_uint32 (to_uint32 (to_uint32 (Z.shiftl hash 5) + hash) + byte.unsigned c).

(** [for (i = 0; i < keyLength; i++)] over the bytes at [key]; [n] turns are
    left.  The loop reads [key[i]] only inside the buffer. *)
Fixpoint digest_loop (key : list byte) (n : nat) (hash : Z) : Z :=
  match n, key with
  | S n', c :: key' => digest_loop key' n' (digest_step hash c)
  | _, _ => hash
  end.

Definition digestKey (order : ByteOrder) (key : list byte) (keyLength : Z)
  : list Z :=
  let hash := digest_loop key (Z.to_nat keyLength) 5381 in
  (* ((uint32_t * )digest)[0] = hash; digest[4..7] are not yet written *)
  let digest := map byte.unsigned (store_uint order 4 hash) ++ [0; 0; 0; 0] in
  let digest := array_set digest 4 (array_get digest 0 mod 16) in
  let digest := array_set digest 5 (array_get digest 1 mod 16) in
  let digest := array_set digest 6 (array_get digest 2 mod 16) in
  let digest := array_set digest 7 (array_get digest 3 mod 16) in
  let digest := array_set digest 0 (array_get digest 0 / 16) in
  let digest := array_set digest 1 (array_get digest 1 / 16) in
  let digest := array_set digest 2 (array_get digest 2 / 16) in
  let digest := array_set digest 3 (array_get digest 3 / 16) in
  digest.

(** The digest as the specification words it. *)

(** The rolling hash [hash = hash * 33 + byte] from seed 5381, on 32 bits. *)
Definition rolling_hash (key : list byte) : Z :=
  fold_left (fun hash c => (hash * 33 + byte.unsigned c) mod 2 ^ 32) key 5381.

(** Byte [i] (0 to 3) of a 32-bit value, counted in memory order. *)
Definition native_byte (order : ByteOrder) (hash : Z) (i : Z) : Z :=
  match order with
  | LittleEndian => Z.land (Z.shiftr hash (8 * i)) 255
  | BigEndian => Z.land (Z.shiftr hash (8 * (3 - i))) 255
  end.

(** Bits 4 to 7 of a byte. *)
Definition high_nibble (b : Z) : Z := Z.land (Z.shiftr b 4) 15.
(** Bits 0 to 3 of a byte. *)
Definition low_nibble (b : Z) : Z := Z.land b 15.

Definition nibble_path (order : ByteOrder) (hash : Z) : list Z :=
  [ high_nibble (native_byte order hash 0); high_nibble (native_byte order hash 1);
    high_nibble (native_byte order hash 2); high_nibble (native_byte order hash 3);
    low_nibble (native_byte order hash 0); low_nibble (native_byte order hash 1);
    low_nibble (native_byte order hash 2); low_nibble (native_byte order hash 3) ].

Definition bytes_of_string (s : list Z) : list byte := map byte.of_Z s.

(** ** The classes of the header *)

Record Stats : Type := mkStats {
  numKeys : Z;
  indexSize : Z;
  metaSize : Z;
  dataSize : Z
}.

(** Stats::Stats *)
Definition Stats_new : Stats :=
  {| numKeys := 0; indexSize := 0; metaSize := 0; dataSize := 0 |}.

(** [content] is [None] for NULL, else the bytes found at the pointer. *)
Record Response : Type := mkResponse {
  result : Z;
  flags : Z;
  content : option (list byte);
  contentLength : Z
}.

(** Response::Response *)
Definition Response_new : Response :=
  {| result := 0; flags := 0; content := None; contentLength := 0 |}.

(** One key/value pair; [next] is the rest of the list the bucket sits in,
    [type] is BH_SIG_BUCKET. *)
Record Bucket : Type := mkBucket {
  bucket_flags : Z;
  bucket_data : list byte
}.

(** What a [Tag *] points to: nothing, an Index with its [data] slots, or the
    head of a bucket list. *)
#[warnings="-register-all"]
Inductive Tag : Type :=
| TNull
| TIndex (data : list Tag)
| TBucket (chain : list Bucket).

(** The [type] member of a tag. *)
Definition Tag_type (tag : Tag) : option Z :=
  match tag with
  | TNull => None
  | TIndex _ => Some BH_SIG_INDEX
  | TBucket _ => Some BH_SIG_BUCKET
  end.

(** Index::Index *)
Definition Index_new : Tag := TIndex (repeat TNull (Z.to_nat BH_INDEX_SIZE)).

Record Hash : Type := mkHash {
  index : Tag;
  stats : Stats;
  maxBuckets : Z;
  reindexScatter : Z
}.

(** Hash::init, after the constructor has set [maxBuckets] and
    [reindexScatter]; [sizeof_Index] is sizeof(Index) on the machine. *)
Definition init (sizeof_Index : Z) (maxBuckets reindexScatter : Z) : Hash :=
  let index := Index_new in
  let stats := Stats_new in
  let stats :=
    {| numKeys := numKeys stats;
       indexSize := to_uint64 (indexSize stats + sizeof_Index);
       metaSize := metaSize stats;
       dataSize := dataSize stats |} in
  {| index := index; stats := stats;
     maxBuckets := maxBuckets; reindexScatter := reindexScatter |}.

(** Hash::Hash() *)
Definition Hash_new0 (sizeof_Index : Z) : Hash :=
  let maxBuckets := 16 in
  let reindexScatter := 1 in
  init sizeof_Index maxBuckets reindexScatter.

(** Hash::Hash(unsigned char) *)
Definition Hash_new1 (sizeof_Index : Z) (newMaxBuckets : Z) : Hash :=
  let maxBuckets := newMaxBuckets in
  let maxBuckets := if maxBuckets <? 1 then 1 else maxBuckets in
  let reindexScatter := 1 in
  init sizeof_Index maxBuckets reindexScatter.

(** Hash::Hash(unsigned char, unsigned char) *)
Definition Hash_new2 (sizeof_Index : Z) (newMaxBuckets newReindexScatter : Z)
  : Hash :=
  let maxBuckets := newMaxBuckets in
  let maxBuckets := if maxBuckets <? 1 then 1 else maxBuckets in
  let reindexScatter := newReindexScatter in
  let reindexScatter := if reindexScatter <? 1 then 1 else reindexScatter in
  let reindexScatter :=
    if maxBuckets + reindexScatter >? 256 then 1 else reindexScatter in
  init sizeof_Index maxBuckets reindexScatter.

(** ** Bucket blob accessors *)

Definition bucketGetKeyLength (order : ByteOrder) (bucketData : list byte) : Z :=
  load_uint order 2 bucketData.

Definition bucketGetKey (bucketData : list byte) : list byte :=
  skipn (Z.to_nat BH_KLEN_SIZE) bucketData.

Definition bucketGetContentLength (order : ByteOrder) (bucketData : list byte)
  : Z :=
  let keyLength := bucketGetKeyLength order bucketData in
  let tempCL := skipn (Z.to_nat (BH_KLEN_SIZE + keyLength)) bucketData in
  load_uint order 4 tempCL.

Definition bucketGetContent (order : ByteOrder) (bucketData : list byte)
  : list byte :=
  let keyLength := bucketGetKeyLength order bucketData in
  skipn (Z.to_nat (BH_KLEN_SIZE + keyLength + BH_LEN_SIZE)) bucketData.

(** The C library's memcmp over the first [n] bytes: zero when they agree,
    else the difference of the first two bytes that differ.  Both buffers are
    read inside their allocation only. *)
Fixpoint memcmp (s1 s2 : list byte) (n : nat) : Z :=
  match n, s1, s2 with
  | S n', a :: s1', b :: s2' =>
      if byte.unsigned a =? byte.unsigned b then memcmp s1' s2' n'
      else byte.unsigned a - byte.unsigned b
  | _, _, _ => 0
  end.

Definition bucketKeyEquals (order : ByteOrder) (bucketData key : list byte)
  (keyLength : Z) : Z :=
  let bucketKeyLength := bucketGetKeyLength order bucketData in
  let bucketKey := skipn (Z.to_nat BH_KLEN_SIZE) bucketData in
  if negb (keyLength =? bucketKeyLength) then 0
  else if memcmp key bucketKey (Z.to_nat keyLength) =? 0 then 1 else 0.

(** Modelled from the spec: the contiguous blob of an entry, which the header's
    accessors read but which only the missing body of store writes, laid out as
    [keyLength][keyBytes][valueLength][valueBytes]. *)
Definition entry_blob (order : ByteOrder) (key : list byte) (keyLength : Z)
  (content : list byte) (contentLength : Z) : list byte :=
  store_uint order 2 keyLength ++ firstn (Z.to_nat keyLength) key
  ++ store_uint order 4 contentLength ++ firstn (Z.to_nat contentLength) content.

(** ** Hash::store and Hash::fetch

    The header declares both; their bodies are not part of it.  The
    definitions of this part follow sections 4.2 to 4.4 of the specification,
    on the header's types: lengths arrive as BH_KLEN_T and BH_LEN_T, the
    answer is a [Response] whose [result] is one of the header's codes. *)

Section Walk.

Variable order : ByteOrder.
(** sizeof(Index) and sizeof(Bucket) on the machine. *)
Variables sizeof_Index sizeof_Bucket : Z.
(** The chain length above which a chain is reindexed. *)
Variable maxChainLength : Z.
(** The key of the operation, its length and its digest. *)
Variable key : list byte.
Variable keyLength : Z.
Variable digest : list Z.

(** Modelled from the spec: the test "an entry whose key bytes equal the given
    key", which the missing bodies make with the header's bucketKeyEquals. *)
Definition bucket_matches (bucket : Bucket) : bool :=
  negb (bucketKeyEquals order (bucket_data bucket) key keyLength =? 0).

(** Modelled from the spec: the linear scan of a chain by fetch, missing from
    the header. *)
Definition chain_find (chain : list Bucket) : option Bucket :=
  find bucket_matches chain.

(** Modelled from the spec: the scan of a chain by store, missing from the
    header; the first entry with the key is replaced by [bucket] and its old
    value length is returned, [None] when no entry has the key. *)
Fixpoint chain_replace (bucket : Bucket) (chain : list Bucket)
  : option (list Bucket * Z) :=
  match chain with
  | [] => None
  | b :: next =>
      if bucket_matches b
      then Some (bucket :: next, bucketGetContentLength order (bucket_data b))
      else match chain_replace bucket next with
           | Some (next', old) => Some (b :: next', old)
           | None => None
           end
  end.

(** Modelled from the spec: the digest symbol of a stored entry at a depth,
    recomputed from the key in its blob; used by reindexing, which is missing
    from the header. *)
Definition bucket_symbol (depth : nat) (bucket : Bucket) : nat :=
  let bucketData := bucket_data bucket in
  Z.to_nat (array_get (digestKey order (bucketGetKey bucketData)
                         (bucketGetKeyLength order bucketData)) depth).

(** Modelled from the spec: the redistribution step of reindexing (section
    4.4), missing from the header; every entry of the overlong chain is
    appended to the chain of the slot its symbol names. *)
Definition scatter (depth : nat) (chain : list Bucket)
  (slots : list (list Bucket)) : list (list Bucket) :=
  fold_left
    (fun slots bucket =>
       let ch := bucket_symbol depth bucket in
       array_set slots ch (nth ch slots [] ++ [bucket]))
    chain slots.

(** Modelled from the spec: the state of a slot of the new branch node after
    redistribution, empty when no entry fell into it, else a chain head. *)
Definition chain_tag (chain : list Bucket) : Tag :=
  match chain with
  | [] => TNull
  | _ => TBucket chain
  end.

(** Modelled from the spec: reindexing (section 4.4), missing from the header.
    [depth] symbols lead to the chain, [fuel] = 8 - [depth] levels are left;
    the answer is the branch node that takes the place of the chain and the
    number of branch nodes made.  A sub-chain that is again too long is
    reindexed while another symbol is left. *)
Fixpoint reindexChain (fuel depth : nat) (chain : list Bucket) : Tag * Z :=
  match fuel with
  | O => (TBucket chain, 0)
  | S fuel' =>
      let slots :=
        scatter depth chain (repeat [] (Z.to_nat BH_INDEX_SIZE)) in
      let children :=
        map (fun sub =>
               if (maxChainLength <? Z.of_nat (length sub))
                  && (S depth <? Z.to_nat BH_DIGEST_SIZE)%nat
               then reindexChain fuel' (S depth) sub
               else (chain_tag sub, 0))
            slots in
      (TIndex (map fst children), 1 + fold_right Z.add 0 (map snd children))
  end.

(** Modelled from the spec: the counters after store has added an entry, one
    key more, the payload of key and value, the overhead of one entry (its
    Bucket and the two length headers), and the branch nodes that reindexing
    made. *)
Definition stats_added (stats : Stats) (contentLength : Z) (branches : Z)
  : Stats :=
  {| numKeys := to_uint64 (numKeys stats + 1);
     indexSize := to_uint64 (indexSize stats + branches * sizeof_Index);
     metaSize :=
       to_uint64 (metaSize stats + sizeof_Bucket + BH_KLEN_SIZE + BH_LEN_SIZE);
     dataSize := to_uint64 (dataSize stats + keyLength + contentLength) |}.

(** Modelled from the spec: the counters after store has replaced a value;
    the payload changes by new - old value length, the key count stays. *)
Definition stats_replaced (stats : Stats) (contentLength old : Z) : Stats :=
  {| numKeys := numKeys stats;
     indexSize := indexSize stats;
     metaSize := metaSize stats;
     dataSize := to_uint64 (dataSize stats + contentLength - old) |}.

(** Modelled from the spec: the walk of store (section 4.2), missing from the
    header.  [depth] symbols were consumed to reach [tag], [fuel] = 8 - [depth]
    are left.  A branch met when no symbol is left is outside the structure the
    table builds; the walk then answers BH_ERR and changes nothing. *)
Fixpoint storeTag (bucket : Bucket) (contentLength : Z) (fuel depth : nat)
  (tag : Tag) (stats : Stats) : Tag * Stats * Z :=
  match tag with
  | TNull => (TBucket [bucket], stats_added stats contentLength 0, BH_ADD)
  | TBucket chain =>
      match chain_replace bucket chain with
      | Some (chain', old) =>
          (TBucket chain', stats_replaced stats contentLength old, BH_REPLACE)
      | None =>
          let chain' := chain ++ [bucket] in
          if (maxChainLength <? Z.of_nat (length chain'))
             && (depth <? Z.to_nat BH_DIGEST_SIZE)%nat
          then
            let '(branch, made) := reindexChain fuel depth chain' in
            (branch, stats_added stats contentLength made, BH_ADD)
          else (TBucket chain', stats_added stats contentLength 0, BH_ADD)
      end
  | TIndex data =>
      match fuel with
      | O => (tag, stats, BH_ERR)
      | S fuel' =>
          let ch := Z.to_nat (array_get digest depth) in
          let '(child, stats', res) :=
            storeTag bucket contentLength fuel' (S depth) (nth ch data TNull)
              stats in
          (TIndex (array_set data ch child), stats', res)
      end
  end.

(** Modelled from the spec: the walk of fetch (section 4.3), missing from the
    header; the same path as store, without mutation. *)
Fixpoint fetchTag (fuel depth : nat) (tag : Tag) : Response :=
  match tag with
  | TNull => Response_new
  | TBucket chain =>
      match chain_find chain with
      | Some bucket =>
          {| result := BH_OK;
             flags := bucket_flags bucket;
             content := Some (bucketGetContent order (bucket_data bucket));
             contentLength :=
               bucketGetContentLength order (bucket_data bucket) |}
      | None => Response_new
      end
  | TIndex data =>
      match fuel with
      | O => Response_new
      | S fuel' =>
          let ch := Z.to_nat (array_get digest depth) in
          fetchTag fuel' (S depth) (nth ch data TNull)
      end
  end.

End Walk.

(** Modelled from the spec: Hash::store (section 4.2), declared in the header
    with this signature and defined outside it.  The answer is the response
    and the table after the call. *)
Definition store (order : ByteOrder) (sizeof_Index sizeof_Bucket : Z)
  (h : Hash) (key : list byte) (keyLength : Z) (content : list byte)
  (contentLength : Z) (flags : Z) : Response * Hash :=
  let digest := digestKey order key keyLength in
  let bucket :=
    {| bucket_flags := flags;
       bucket_data := entry_blob order key keyLength content contentLength |} in
  let '(index', stats', res) :=
    storeTag order sizeof_Index sizeof_Bucket (maxBuckets h) key keyLength
      digest bucket contentLength (Z.to_nat BH_DIGEST_SIZE) 0 (index h)
      (stats h) in
  ({| result := res; flags := flags; content := None;
      contentLength := contentLength |},
   {| index := index'; stats := stats';
      maxBuckets := maxBuckets h; reindexScatter := reindexScatter h |}).

(** Modelled from the spec: Hash::fetch (section 4.3), declared in the header
    with this signature and defined outside it. *)
Definition fetch (order : ByteOrder) (h : Hash) (key : list byte)
  (keyLength : Z) : Response :=
  let digest := digestKey order key keyLength in
  fetchTag order key keyLength digest (Z.to_nat BH_DIGEST_SIZE) 0 (index h).

(** The shape the table keeps: at most [fuel] levels of branch nodes, each
    with its 16 slots. *)
Fixpoint wfTag (fuel : nat) (tag : Tag) : bool :=
  match tag with
  | TNull => true
  | TBucket _ => true
  | TIndex data =>
      match fuel with
      | O => false
      | S fuel' =>
          (length data =? Z.to_nat BH_INDEX_SIZE)%nat && forallb (wfTag fuel') data
      end
  end.

Definition wfHash (h : Hash) : bool := wfTag (Z.to_nat BH_DIGEST_SIZE) (index h).

(** A table as construction leaves it: a root Index whose 16 slots are NULL,
    no key, no entry overhead, no payload, and the bytes of one Index. *)
Definition fresh_table (sizeof_Index : Z) (h : Hash) : Prop :=
  index h = TIndex [TNull; TNull; TNull; TNull; TNull; TNull; TNull; TNull;
                    TNull; TNull; TNull; TNull; TNull; TNull; TNull; TNull]
  /\ numKeys (stats h) = 0
  /\ metaSize (stats h) = 0
  /\ dataSize (stats h) = 0
  /\ indexSize (stats h) = sizeof_Index
  /\ indexSize (stats h) <> 0.

(** ** Further definitions *)







(** The way back from a digest to the 32-bit hash it was cut from: symbol
    [i] and symbol [i + 4] are the high and the low half of byte [i], and the
    four bytes are read as one uint32_t. *)
Definition digest_hash (order : ByteOrder) (digest : list Z) : Z :=
  load_uint order 4
    (map byte.of_Z
       [ 16 * array_get digest 0 + array_get digest 4;
         16 * array_get digest 1 + array_get digest 5;
         16 * array_get digest 2 + array_get digest 6;
         16 * array_get digest 3 + array_get digest 7 ]).

(** * Properties *)

(** Case analysis on the test of the conditional in the goal. *)
Ltac case_cond :=
  match goal with
  | |- context [if ?c then _ else _] => destruct c
  end.

(** Names the two components of the reindexing call in the goal. *)
Ltac case_reindex :=
  match goal with
  | |- context [reindexChain ?o ?m ?f ?d ?c] =>
      destruct (reindexChain o m f d c) as [branch made]
  end.

(** ** Arithmetic of the fixed-width types *)


Lemma to_uint_small (w z : Z) : 0 <= z < 2 ^ w -> to_uint w z = z.
Proof. intros H. unfold to_uint. now apply Z.mod_small. Qed.

Lemma byte_wrap_land (x : Z) : byte.wrap x = Z.land x 255.
Proof.
  unfold byte.wrap. change 255 with (Z.ones 8).
  now rewrite Z.land_ones by lia.
Qed.

Lemma land_255_range (x : Z) : 0 <= Z.land x 255 < 256.
Proof.
  change 255 with (Z.ones 8). rewrite Z.land_ones by lia.
  apply Z.mod_pos_bound. lia.
Qed.

Lemma high_nibble_div (b : Z) : 0 <= b < 256 -> b / 16 = high_nibble b.
Proof.
  intros Hb. unfold high_nibble. change 15 with (Z.ones 4).
  rewrite Z.land_ones by lia. rewrite Z.shiftr_div_pow2 by lia.
  change (2 ^ 4) with 16. symmetry. apply Z.mod_small.
  split; [apply Z.div_pos; lia | apply Z.div_lt_upper_bound; lia].
Qed.

Lemma low_nibble_mod (b : Z) : b mod 16 = low_nibble b.
Proof.
  unfold low_nibble. change 15 with (Z.ones 4).
  now rewrite Z.land_ones by lia.
Qed.

(** ** digestKey *)

Lemma digest_step_spec (hash : Z) (c : byte) :
  digest_step hash c = (hash * 33 + byte.unsigned c) mod 2 ^ 32.
Proof.
  unfold digest_step, to_uint32, to_uint.
  rewrite Z.shiftl_mul_pow2 by lia.
  rewrite Zplus_mod_idemp_l, <- Z.add_assoc, Zplus_mod_idemp_l.
  f_equal. lia.
Qed.

Lemma digest_loop_fold (key : list byte) :
  forall (n : nat) (hash : Z),
    digest_loop key n hash
    = fold_left (fun hash c => (hash * 33 + byte.unsigned c) mod 2 ^ 32)
        (firstn n key) hash.
Proof.
  induction key as [|c key IH]; intros [|n] hash; simpl; try reflexivity.
  rewrite IH, digest_step_spec. reflexivity.
Qed.

Lemma digest_loop_all (key : list byte) :
  digest_loop key (length key) 5381 = rolling_hash key.
Proof.
  rewrite digest_loop_fold, firstn_all. reflexivity.
Qed.

(** The eight symbols, read off the stored hash. *)
Lemma digestKey_nibbles (order : ByteOrder) (key : list byte) (keyLength : Z) :
  digestKey order key keyLength
  = nibble_path order (digest_loop key (Z.to_nat keyLength) 5381).
Proof.
  unfold digestKey, nibble_path.
  generalize (digest_loop key (Z.to_nat keyLength) 5381) as hash. intros hash.
  destruct order;
    cbv [store_uint le_split rev map app array_set array_get nth native_byte];
    rewrite !byte.unsigned_of_Z, !byte_wrap_land, <- !low_nibble_mod;
    rewrite !Z.shiftr_shiftr by lia; simpl Z.add; simpl Z.mul; simpl Z.sub;
    rewrite ?Z.shiftr_0_r;
    repeat (f_equal; try (apply high_nibble_div; apply land_255_range)).
Qed.

Lemma nibble_range (b : Z) :
  0 <= high_nibble b < 16 /\ 0 <= low_nibble b < 16.
Proof.
  unfold high_nibble, low_nibble. change 15 with (Z.ones 4).
  rewrite !Z.land_ones by lia. split; apply Z.mod_pos_bound; lia.
Qed.

Lemma nibble_path_range (order : ByteOrder) (hash : Z) :
  Forall (fun s => 0 <= s < BH_INDEX_SIZE) (nibble_path order hash).
Proof.
  unfold nibble_path, BH_INDEX_SIZE.
  repeat constructor; apply nibble_range.
Qed.

Lemma digestKey_symbol_range (order : ByteOrder) (key : list byte)
  (keyLength : Z) (depth : nat) :
  0 <= array_get (digestKey order key keyLength) depth < BH_INDEX_SIZE.
Proof.
  rewrite digestKey_nibbles. unfold array_get.
  pose proof (nibble_path_range order
                (digest_loop key (Z.to_nat keyLength) 5381)) as HF.
  rewrite Forall_forall in HF.
  destruct (nth_in_or_default depth
              (nibble_path order (digest_loop key (Z.to_nat keyLength) 5381)) 0)
    as [Hin | Hd].
  - now apply HF.
  - rewrite Hd. unfold BH_INDEX_SIZE. lia.
Qed.

(** C2: for a key of 0 to 65535 bytes, digestKey computes the 32-bit rolling
    hash hash = hash * 33 + byte from seed 5381 over the key bytes in order and
    yields exactly 8 symbols: symbols 0 to 3 are the high nibbles of bytes 0
    to 3 of the hash as it lies in memory, symbols 4 to 7 the low nibbles of
    the same bytes. *)
Theorem digestKey_rolling_hash_nibbles :
  forall (order : ByteOrder) (key : list byte) (keyLength : Z),
    keyLength = Z.of_nat (length key) ->
    0 <= keyLength <= 65535 ->
    digestKey order key keyLength
    = [ high_nibble (native_byte order (rolling_hash key) 0);
        high_nibble (native_byte order (rolling_hash key) 1);
        high_nibble (native_byte order (rolling_hash key) 2);
        high_nibble (native_byte order (rolling_hash key) 3);
        low_nibble (native_byte order (rolling_hash key) 0);
        low_nibble (native_byte order (rolling_hash key) 1);
        low_nibble (native_byte order (rolling_hash key) 2);
        low_nibble (native_byte order (rolling_hash key) 3) ]
    /\ Z.of_nat (length (digestKey order key keyLength)) = BH_DIGEST_SIZE.
Proof.
  intros order key keyLength Hlen _. subst keyLength.
  rewrite digestKey_nibbles, Nat2Z.id, digest_loop_all.
  split; reflexivity.
Qed.

Lemma digestKey_rolling_hash_nibbles_witness :
  digestKey LittleEndian (bytes_of_string [97; 98; 99]) 3
  = [8; 5; 8; 0; 11; 12; 8; 11]
  /\ digestKey BigEndian (bytes_of_string [97; 98; 99]) 3
    = [0; 8; 5; 8; 11; 8; 12; 11].
Proof.
  split.
  - rewrite (proj1 (digestKey_rolling_hash_nibbles LittleEndian
                      (bytes_of_string [97; 98; 99]) 3 eq_refl
                      ltac:(lia))).
    vm_compute. reflexivity.
  - rewrite (proj1 (digestKey_rolling_hash_nibbles BigEndian
                      (bytes_of_string [97; 98; 99]) 3 eq_refl
                      ltac:(lia))).
    vm_compute. reflexivity.
Defined.

(** C8: each of the 8 symbols of a digest lies in [0,16), so it is an index
    into the 16 slots of an Index: reading the slots of an Index at a digest
    symbol stays inside the array. *)
Theorem digestKey_symbols_in_range :
  forall (order : ByteOrder) (key : list byte) (keyLength : Z),
    length (digestKey order key keyLength) = Z.to_nat BH_DIGEST_SIZE
    /\ Forall (fun s => 0 <= s < BH_INDEX_SIZE) (digestKey order key keyLength)
    /\ Forall (fun s =>
                 match Index_new with
                 | TIndex data => nth_error data (Z.to_nat s) = Some TNull
                 | _ => False
                 end)
         (digestKey order key keyLength).
Proof.
  intros order key keyLength. rewrite digestKey_nibbles.
  split; [reflexivity|]. split; [apply nibble_path_range|].
  eapply Forall_impl; [|apply nibble_path_range].
  intros s Hs. cbv beta in Hs. unfold BH_INDEX_SIZE in Hs.
  unfold Index_new.
  rewrite (nth_error_nth' _ TNull) by (rewrite repeat_length; unfold BH_INDEX_SIZE; lia).
  now rewrite nth_repeat.
Qed.

(** C10: digestKey accepts keyLength = 0: the loop runs no turn, and the
    digest of the empty key is the nibble decomposition of the seed 5381, one
    fixed path whatever bytes lie at [key]. *)
Theorem digestKey_empty_key :
  forall (order : ByteOrder) (key : list byte),
    digest_loop key (Z.to_nat 0) 5381 = 5381
    /\ digestKey order key 0 = nibble_path order 5381
    /\ digestKey order key 0
       = match order with
         | LittleEndian => [0; 1; 0; 0; 5; 5; 0; 0]
         | BigEndian => [0; 0; 1; 0; 0; 0; 5; 5]
         end
    /\ Forall (fun s => 0 <= s < BH_INDEX_SIZE) (digestKey order key 0).
Proof.
  intros order key.
  assert (H0 : digest_loop key (Z.to_nat 0) 5381 = 5381) by (destruct key; reflexivity).
  split; [exact H0|]. rewrite digestKey_nibbles, H0.
  split; [reflexivity|]. split; [destruct order; reflexivity|].
  apply nibble_path_range.
Qed.

(** ** Result codes *)

(** The four codes as the header defines them. *)
Lemma result_codes :
  BH_ERR = 0 /\ BH_OK = 1 /\ BH_ADD = 1 /\ BH_REPLACE = 2.
Proof. repeat split. Qed.

(** C5 as stated fails: ok and added are one value, so the four statuses are
    not pairwise distinct. *)
Lemma result_codes_not_pairwise_distinct :
  ~ NoDup [BH_ERR; BH_OK; BH_ADD; BH_REPLACE].
Proof.
  intros H. inversion H as [|x l _ H1]; subst.
  inversion H1 as [|y l' Hin _]; subst.
  apply Hin. left. reflexivity.
Qed.

(** C5, amended: error, added and replaced are pairwise distinct, so a store
    is told apart as add, replace or error by its status alone; error and ok
    are distinct, so a fetch is told apart as ok or error; ok and added share
    the value 1, ok being used by fetch only. *)
Theorem result_codes_distinct_per_operation :
  NoDup [BH_ERR; BH_ADD; BH_REPLACE]
  /\ NoDup [BH_ERR; BH_OK]
  /\ BH_OK = BH_ADD
  /\ BH_OK <> BH_REPLACE.
Proof.
  unfold BH_ERR, BH_OK, BH_ADD, BH_REPLACE.
  repeat split; try lia;
    repeat (constructor; [simpl; intuition lia|]); constructor.
Qed.

(** ** Constructors *)

(** C3: after construction, maxBuckets is 16 when not supplied and raised to 1
    when supplied below 1; reindexScatter is 1 when not supplied and raised to
    1 when supplied below 1; and when maxBuckets + reindexScatter would exceed
    256, reindexScatter is reset to 1, so the sum never exceeds 256.  The
    arguments are unsigned chars. *)
Theorem constructor_configuration :
  forall (sizeof_Index newMaxBuckets newReindexScatter : Z),
    0 <= newMaxBuckets <= 255 ->
    0 <= newReindexScatter <= 255 ->
    let h0 := Hash_new0 sizeof_Index in
    let h1 := Hash_new1 sizeof_Index newMaxBuckets in
    let h2 := Hash_new2 sizeof_Index newMaxBuckets newReindexScatter in
    (maxBuckets h0 = 16 /\ reindexScatter h0 = 1)
    /\ (maxBuckets h1 = Z.max newMaxBuckets 1 /\ reindexScatter h1 = 1)
    /\ maxBuckets h2 = Z.max newMaxBuckets 1
    /\ (newMaxBuckets < 1 -> maxBuckets h1 = 1 /\ maxBuckets h2 = 1)
    /\ (newReindexScatter < 1 -> reindexScatter h2 = 1)
    /\ (Z.max newMaxBuckets 1 + Z.max newReindexScatter 1 > 256 ->
        reindexScatter h2 = 1)
    /\ (Z.max newMaxBuckets 1 + Z.max newReindexScatter 1 <= 256 ->
        reindexScatter h2 = Z.max newReindexScatter 1)
    /\ maxBuckets h0 + reindexScatter h0 <= 256
    /\ maxBuckets h1 + reindexScatter h1 <= 256
    /\ maxBuckets h2 + reindexScatter h2 <= 256.
Proof.
  intros szI m r Hm Hr. cbv zeta.
  unfold Hash_new0, Hash_new1, Hash_new2, init. simpl.
  rewrite !Z.gtb_ltb.
  destruct (Z.ltb_spec m 1) as [Hm1 | Hm1];
    destruct (Z.ltb_spec r 1) as [Hr1 | Hr1];
    repeat match goal with
           | |- context [?a <? ?b] => destruct (Z.ltb_spec a b)
           end;
    repeat split; intros; lia.
Qed.

Lemma constructor_configuration_witness :
  maxBuckets (Hash_new2 136 0 0) = 1
  /\ reindexScatter (Hash_new2 136 0 0) = 1
  /\ reindexScatter (Hash_new2 136 255 255) = 1
  /\ reindexScatter (Hash_new2 136 200 56) = 56.
Proof.
  pose proof (constructor_configuration 136 0 0 ltac:(lia) ltac:(lia)) as H0.
  pose proof (constructor_configuration 136 255 255 ltac:(lia) ltac:(lia)) as H1.
  pose proof (constructor_configuration 136 200 56 ltac:(lia) ltac:(lia)) as H2.
  cbv zeta in H0, H1, H2.
  destruct H0 as (_ & _ & _ & Ha & Hb & _).
  destruct H1 as (_ & _ & _ & _ & _ & Hc & _).
  destruct H2 as (_ & _ & _ & _ & _ & _ & Hd & _).
  split; [apply Ha; lia|]. split; [apply Hb; lia|].
  split; [apply Hc; lia|]. rewrite Hd; lia.
Defined.

(** C9: right after any of the three constructors the root Index exists with
    its 16 slots NULL, numKeys, metaSize and dataSize are 0, and indexSize is
    sizeof(Index), the size of the one root node, hence not zero. *)
Theorem constructors_fresh_table :
  forall (sizeof_Index newMaxBuckets newReindexScatter : Z),
    0 < sizeof_Index < 2 ^ 64 ->
    fresh_table sizeof_Index (Hash_new0 sizeof_Index)
    /\ fresh_table sizeof_Index (Hash_new1 sizeof_Index newMaxBuckets)
    /\ fresh_table sizeof_Index
         (Hash_new2 sizeof_Index newMaxBuckets newReindexScatter).
Proof.
  intros szI m r Hsz.
  assert (Hfresh : forall mb rs, fresh_table szI (init szI mb rs)).
  { intros mb rs. unfold fresh_table, init. simpl.
    unfold to_uint64. rewrite to_uint_small by lia.
    repeat split; try reflexivity; lia. }
  unfold Hash_new0, Hash_new1, Hash_new2.
  repeat split; apply Hfresh.
Qed.

Lemma constructors_fresh_table_witness :
  fresh_table 136 (Hash_new0 136)
  /\ fresh_table 136 (Hash_new1 136 4)
  /\ fresh_table 136 (Hash_new2 136 4 2).
Proof.
  apply (constructors_fresh_table 136 4 2). lia.
Defined.

(** ** Lists as buffers *)

Lemma firstn_length_app {A : Type} (l r : list A) (n : nat) :
  n = length l -> firstn n (l ++ r) = l.
Proof.
  intros ->. rewrite firstn_app, Nat.sub_diag, firstn_all. simpl.
  apply app_nil_r.
Qed.

Lemma skipn_length_app {A : Type} (l r : list A) (n : nat) :
  n = length l -> skipn n (l ++ r) = r.
Proof.
  intros ->. rewrite skipn_app, Nat.sub_diag, skipn_all. reflexivity.
Qed.

Lemma store_uint_length (order : ByteOrder) (n : nat) (z : Z) :
  length (store_uint order n z) = n.
Proof.
  destruct order; simpl; rewrite ?length_rev; apply length_le_split.
Qed.

(** Reading back what was written gives the value, wrapped to the width. *)
Lemma load_store_uint (order : ByteOrder) (n : nat) (z : Z) (rest : list byte) :
  load_uint order n (store_uint order n z ++ rest) = z mod 2 ^ (Z.of_nat n * 8).
Proof.
  unfold load_uint.
  rewrite (firstn_length_app (store_uint order n z) rest n)
    by (symmetry; apply store_uint_length).
  destruct order; simpl; rewrite ?rev_involutive; apply le_combine_split.
Qed.

Lemma load_uint_range (order : ByteOrder) (n : nat) (p : list byte) :
  0 <= load_uint order n p < 2 ^ (8 * Z.of_nat n).
Proof.
  assert (Hn : forall l : list byte,
             (length l <= n)%nat -> 0 <= le_combine l < 2 ^ (8 * Z.of_nat n)).
  { intros l Hl. pose proof (le_combine_bound l) as Hb.
    assert (2 ^ (8 * Z.of_nat (length l)) <= 2 ^ (8 * Z.of_nat n))
      by (apply Z.pow_le_mono_r; lia).
    lia. }
  unfold load_uint. destruct order; apply Hn;
    rewrite ?length_rev, length_firstn; lia.
Qed.

(** ** Entry blobs *)

Section Blob.

Variable order : ByteOrder.
Variables key content : list byte.
Let keyLength : Z := Z.of_nat (length key).
Let contentLength : Z := Z.of_nat (length content).
Let blob : list byte := entry_blob order key keyLength content contentLength.

Hypothesis key_bound : keyLength <= 65535.
Hypothesis content_bound : contentLength <= 4294967295.

Lemma entry_blob_eq :
  blob = store_uint order 2 keyLength
         ++ key ++ store_uint order 4 contentLength ++ content.
Proof.
  unfold blob, entry_blob, keyLength, contentLength.
  rewrite !Nat2Z.id, !firstn_all. reflexivity.
Qed.

Lemma blob_key_length : bucketGetKeyLength order blob = keyLength.
Proof.
  unfold bucketGetKeyLength. rewrite entry_blob_eq, load_store_uint.
  apply Z.mod_small. unfold keyLength in *. simpl. lia.
Qed.

Lemma blob_key : bucketGetKey blob = key ++ store_uint order 4 contentLength ++ content.
Proof.
  unfold bucketGetKey. rewrite entry_blob_eq.
  apply skipn_length_app. rewrite store_uint_length. reflexivity.
Qed.

Lemma blob_skip_key :
  skipn (Z.to_nat (BH_KLEN_SIZE + keyLength)) blob
  = store_uint order 4 contentLength ++ content.
Proof.
  rewrite entry_blob_eq, app_assoc.
  apply skipn_length_app.
  rewrite length_app, store_uint_length. unfold BH_KLEN_SIZE, keyLength. lia.
Qed.

Lemma blob_content_length : bucketGetContentLength order blob = contentLength.
Proof.
  unfold bucketGetContentLength. rewrite blob_key_length, blob_skip_key.
  rewrite load_store_uint. apply Z.mod_small.
  unfold contentLength in *. simpl. lia.
Qed.

Lemma blob_content : bucketGetContent order blob = content.
Proof.
  unfold bucketGetContent. rewrite blob_key_length, entry_blob_eq.
  rewrite (app_assoc _ key), (app_assoc _ (store_uint order 4 contentLength)).
  apply skipn_length_app.
  rewrite !length_app, !store_uint_length.
  unfold BH_KLEN_SIZE, BH_LEN_SIZE, keyLength. lia.
Qed.

End Blob.

(** C6: on an entry blob laid out as [keyLength][keyBytes][valueLength]
    [valueBytes], with a 16-bit key length and a 32-bit value length, the
    accessors give back the stored fields: bucketGetKeyLength the key length,
    bucketGetKey the address of the key bytes, bucketGetContentLength the
    value length, bucketGetContent the address of the value bytes. *)
Theorem blob_accessors_roundtrip :
  forall (order : ByteOrder) (key content : list byte) (kl vl : Z),
    kl = Z.of_nat (length key) -> kl <= 65535 ->
    vl = Z.of_nat (length content) -> vl <= 4294967295 ->
    let blob := entry_blob order key kl content vl in
    bucketGetKeyLength order blob = kl
    /\ firstn (Z.to_nat kl) (bucketGetKey blob) = key
    /\ bucketGetContentLength order blob = vl
    /\ firstn (Z.to_nat vl) (bucketGetContent order blob) = content
    /\ blob = store_uint order 2 kl ++ key ++ store_uint order 4 vl ++ content.
Proof.
  intros order key content kl vl -> Hk -> Hv blob. subst blob.
  rewrite blob_key_length, blob_key, blob_content_length, blob_content by assumption.
  rewrite !Nat2Z.id, firstn_all.
  rewrite (firstn_length_app key _ (length key)) by reflexivity.
  repeat split. apply entry_blob_eq.
Qed.

Lemma blob_accessors_roundtrip_witness :
  let blob := entry_blob BigEndian (bytes_of_string [107; 101; 121]) 3
                (bytes_of_string [118; 97]) 2 in
  bucketGetKeyLength BigEndian blob = 3
  /\ firstn 3 (bucketGetKey blob) = bytes_of_string [107; 101; 121]
  /\ bucketGetContentLength BigEndian blob = 2
  /\ firstn 2 (bucketGetContent BigEndian blob) = bytes_of_string [118; 97].
Proof.
  destruct (blob_accessors_roundtrip BigEndian
              (bytes_of_string [107; 101; 121]) (bytes_of_string [118; 97])
              3 2 eq_refl ltac:(lia) eq_refl ltac:(lia))
    as (H1 & H2 & H3 & H4 & _).
  cbv zeta. repeat split; assumption.
Defined.

(** ** bucketKeyEquals *)

Lemma memcmp_zero_iff (s1 s2 : list byte) :
  forall n : nat,
    (n <= length s1)%nat -> (n <= length s2)%nat ->
    (memcmp s1 s2 n = 0
     <-> forall i : nat, (i < n)%nat -> nth_error s1 i = nth_error s2 i).
Proof.
  revert s2. induction s1 as [|a s1 IH]; intros s2 n H1 H2.
  - assert (n = 0%nat) by (simpl in H1; lia). subst n.
    split; [intros _ i Hi; lia | reflexivity].
  - destruct n as [|n]; [split; [intros _ i Hi; lia | reflexivity]|].
    destruct s2 as [|b s2]; [simpl in H2; lia|].
    simpl in H1, H2. simpl memcmp.
    destruct (Z.eqb_spec (byte.unsigned a) (byte.unsigned b)) as [Hab | Hab].
    + apply byte.unsigned_inj in Hab. subst b.
      rewrite (IH s2 n) by lia. split.
      * intros H [|i] Hi; [reflexivity | simpl; apply H; lia].
      * intros H i Hi. apply (H (S i)). lia.
    + split; [lia|]. intros H. specialize (H 0%nat ltac:(lia)).
      simpl in H. congruence.
Qed.

Lemma memcmp_prefix (s rest : list byte) :
  memcmp s (s ++ rest) (length s) = 0.
Proof.
  induction s as [|a s IH]; simpl; [reflexivity|].
  rewrite Z.eqb_refl. exact IH.
Qed.

(** C7: bucketKeyEquals answers nonzero exactly when the probe key length
    equals the stored key length and the key bytes agree at every position,
    and answers 0 otherwise; the probe holds [keyLength] bytes and the blob
    holds its key. *)
Theorem bucketKeyEquals_exact_match :
  forall (order : ByteOrder) (bucketData key : list byte) (keyLength : Z),
    keyLength = Z.of_nat (length key) ->
    BH_KLEN_SIZE + bucketGetKeyLength order bucketData
    <= Z.of_nat (length bucketData) ->
    let same :=
      keyLength = bucketGetKeyLength order bucketData
      /\ forall i : nat, (i < length key)%nat ->
           nth_error key i = nth_error (bucketGetKey bucketData) i in
    (bucketKeyEquals order bucketData key keyLength <> 0 <-> same)
    /\ (same -> bucketKeyEquals order bucketData key keyLength = 1)
    /\ (~ same -> bucketKeyEquals order bucketData key keyLength = 0).
Proof.
  intros order bucketData key keyLength Hlen Hblob same.
  assert (Hcases :
            (same /\ bucketKeyEquals order bucketData key keyLength = 1)
            \/ (~ same /\ bucketKeyEquals order bucketData key keyLength = 0)).
  { subst same. unfold bucketKeyEquals, bucketGetKey.
    destruct (Z.eqb_spec keyLength (bucketGetKeyLength order bucketData))
      as [Heq | Hne]; cbn [negb].
    - assert (Hiff := memcmp_zero_iff key
                        (skipn (Z.to_nat BH_KLEN_SIZE) bucketData)
                        (Z.to_nat keyLength)).
      rewrite Hlen, Nat2Z.id in Hiff.
      specialize (Hiff (Nat.le_refl _)).
      rewrite length_skipn in Hiff. unfold BH_KLEN_SIZE in *.
      specialize (Hiff ltac:(lia)).
      rewrite Hlen, Nat2Z.id.
      destruct (Z.eqb_spec
                  (memcmp key (skipn (Z.to_nat 2) bucketData) (length key)) 0)
        as [Hz | Hnz]; cbv iota.
      + left. split; [|reflexivity]. split; [lia|]. now apply Hiff.
      + right. split; [|reflexivity]. intros [_ Hall]. apply Hnz.
        now apply Hiff.
    - right. split; [|reflexivity]. intros [Heq _]. contradiction. }
  destruct Hcases as [[Hs Hr] | [Hs Hr]]; rewrite Hr.
  - split; [split; [intros _; exact Hs | intros _; lia]|].
    split; [reflexivity | intros Hn; contradiction].
  - split; [split; [intros Hn; lia | intros Hn; contradiction]|].
    split; [intros Hn; contradiction | reflexivity].
Qed.

Lemma bucketKeyEquals_exact_match_witness :
  bucketKeyEquals LittleEndian
    (entry_blob LittleEndian (bytes_of_string [107; 101; 121]) 3
       (bytes_of_string [118]) 1)
    (bytes_of_string [107; 101; 121]) 3 = 1
  /\ bucketKeyEquals LittleEndian
       (entry_blob LittleEndian (bytes_of_string [107; 101; 121]) 3
          (bytes_of_string [118]) 1)
       (bytes_of_string [107; 101; 122]) 3 = 0.
Proof.
  split.
  - apply (bucketKeyEquals_exact_match LittleEndian
             (entry_blob LittleEndian (bytes_of_string [107; 101; 121]) 3
                (bytes_of_string [118]) 1)
             (bytes_of_string [107; 101; 121]) 3 eq_refl).
    + vm_compute. discriminate.
    + split; [reflexivity|].
      intros [|[|[|i]]] Hi; try reflexivity. simpl in Hi. lia.
  - apply (bucketKeyEquals_exact_match LittleEndian
             (entry_blob LittleEndian (bytes_of_string [107; 101; 121]) 3
                (bytes_of_string [118]) 1)
             (bytes_of_string [107; 101; 122]) 3 eq_refl).
    + vm_compute. discriminate.
    + intros [_ Hall]. specialize (Hall 2%nat ltac:(simpl; lia)).
      vm_compute in Hall. discriminate.
Defined.

(** ** Arrays and scans *)

Lemma array_set_length {A : Type} (a : list A) :
  forall (i : nat) (v : A), length (array_set a i v) = length a.
Proof.
  induction a as [|x a IH]; intros [|i] v; simpl; try reflexivity.
  now rewrite IH.
Qed.

Lemma nth_array_set_same {A : Type} (a : list A) :
  forall (i : nat) (v d : A),
    (i < length a)%nat -> nth i (array_set a i v) d = v.
Proof.
  induction a as [|x a IH]; intros [|i] v d Hi; simpl in *; try lia.
  - reflexivity.
  - apply IH. lia.
Qed.

Lemma nth_array_set_other {A : Type} (a : list A) :
  forall (i s : nat) (v d : A),
    s <> i -> nth s (array_set a i v) d = nth s a d.
Proof.
  induction a as [|x a IH]; intros [|i] [|s] v d Hs; simpl;
    try reflexivity; try lia.
  apply IH. lia.
Qed.

Lemma find_app_none {A : Type} (p : A -> bool) (l : list A) (b : A) :
  find p l = None -> p b = true -> find p (l ++ [b]) = Some b.
Proof.
  induction l as [|x l IH]; simpl; intros Hnone Hb.
  - now rewrite Hb.
  - destruct (p x); [discriminate | now apply IH].
Qed.

Lemma find_filter {A : Type} (p q : A -> bool) (l : list A) (b : A) :
  find p l = Some b -> q b = true -> find p (filter q l) = Some b.
Proof.
  induction l as [|x l IH]; simpl; intros Hfind Hq; [discriminate|].
  destruct (p x) eqn:Hpx.
  - injection Hfind as ->. rewrite Hq. simpl. now rewrite Hpx.
  - destruct (q x); simpl; [rewrite Hpx|]; now apply IH.
Qed.

Lemma digest_loop_app (key rest : list byte) :
  forall hash : Z,
    digest_loop (key ++ rest) (length key) hash
    = digest_loop key (length key) hash.
Proof.
  induction key as [|c key IH]; intros hash; simpl.
  - destruct rest; reflexivity.
  - apply IH.
Qed.

(** The digest reads the first [keyLength] bytes at [key] only. *)
Lemma digestKey_app (order : ByteOrder) (key rest : list byte) :
  digestKey order (key ++ rest) (Z.of_nat (length key))
  = digestKey order key (Z.of_nat (length key)).
Proof.
  rewrite !digestKey_nibbles, Nat2Z.id, digest_loop_app. reflexivity.
Qed.

(** ** store then fetch *)

Section RoundTrip.

Variable order : ByteOrder.
Variables sizeof_Index sizeof_Bucket : Z.
Variable maxChainLength : Z.
Variables key value : list byte.
Variable entryFlags : Z.

Let keyLength : Z := Z.of_nat (length key).
Let valueLength : Z := Z.of_nat (length value).
Let digest : list Z := digestKey order key keyLength.
Let bucket : Bucket :=
  {| bucket_flags := entryFlags;
     bucket_data := entry_blob order key keyLength value valueLength |}.

(** What fetch answers when it finds [bucket]. *)
Let found : Response :=
  {| result := BH_OK;
     flags := entryFlags;
     content := Some value;
     contentLength := valueLength |}.

Hypothesis key_bound : keyLength <= 65535.
Hypothesis value_bound : valueLength <= 4294967295.

Let matches := bucket_matches order key keyLength.
Let find_key := chain_find order key keyLength.
Let replace_key := chain_replace order key keyLength bucket.
Let symbol := bucket_symbol order.
Let reindex := reindexChain order maxChainLength.
Let storeWalk :=
  storeTag order sizeof_Index sizeof_Bucket maxChainLength key keyLength digest
    bucket valueLength.
Let fetchWalk := fetchTag order key keyLength digest.

Lemma bucket_matches_self : matches bucket = true.
Proof.
  unfold matches, bucket_matches, bucketKeyEquals, bucket. cbn [bucket_data].
  rewrite blob_key_length by exact key_bound.
  fold keyLength. rewrite Z.eqb_refl. cbn [negb].
  fold (bucketGetKey (entry_blob order key keyLength value valueLength)).
  unfold keyLength at 1, valueLength.
  rewrite blob_key. unfold keyLength. rewrite Nat2Z.id, memcmp_prefix.
  reflexivity.
Qed.

Lemma bucket_symbol_self (depth : nat) :
  symbol depth bucket = Z.to_nat (array_get digest depth).
Proof.
  unfold symbol, bucket_symbol, bucket. cbn [bucket_data].
  rewrite blob_key_length by exact key_bound.
  unfold keyLength at 1, valueLength.
  rewrite blob_key. rewrite digestKey_app. reflexivity.
Qed.

Lemma found_bucket (chain : list Bucket) :
  find_key chain = Some bucket ->
  forall fuel depth : nat, fetchWalk fuel depth (TBucket chain) = found.
Proof.
  intros Hfind fuel depth. unfold fetchWalk.
  destruct fuel; cbn [fetchTag]; fold find_key; rewrite Hfind;
    unfold bucket, found; cbn [bucket_data bucket_flags];
    rewrite blob_content_length, blob_content by assumption; reflexivity.
Qed.

Lemma replace_key_found (chain : list Bucket) :
  forall (chain' : list Bucket) (old : Z),
    replace_key chain = Some (chain', old) -> find_key chain' = Some bucket.
Proof.
  unfold replace_key, find_key, chain_find.
  induction chain as [|b next IH]; intros chain' old; cbn [chain_replace].
  - discriminate.
  - fold matches. destruct (matches b) eqn:Hb.
    + intros [= <- _]. cbn [find]. fold matches.
      now rewrite bucket_matches_self.
    + destruct (chain_replace order key keyLength bucket next)
        as [[next' old']|] eqn:Hnext; [|discriminate].
      intros [= <- _]. cbn [find]. fold matches. rewrite Hb.
      now apply (IH next' old').
Qed.

Lemma replace_key_none (chain : list Bucket) :
  replace_key chain = None -> find_key (chain ++ [bucket]) = Some bucket.
Proof.
  intros Hnone. unfold find_key, chain_find.
  apply find_app_none; [|apply bucket_matches_self].
  unfold replace_key in Hnone. revert Hnone.
  induction chain as [|b next IH]; [reflexivity|].
  cbn [chain_replace find]. fold matches.
  destruct (matches b); [discriminate|].
  destruct (chain_replace order key keyLength bucket next)
    as [[next' old']|] eqn:Hnext; [discriminate|].
  intros _. apply IH. reflexivity.
Qed.

Lemma scatter_length (depth : nat) (chain : list Bucket) :
  forall slots : list (list Bucket),
    length (scatter order depth chain slots) = length slots.
Proof.
  unfold scatter. induction chain as [|b chain IH]; intros slots; simpl.
  - reflexivity.
  - rewrite IH. apply array_set_length.
Qed.

(** After redistribution, slot [s] holds what it held, then the entries of the
    chain whose symbol is [s], in chain order. *)
Lemma scatter_nth (depth : nat) (chain : list Bucket) :
  forall (slots : list (list Bucket)) (s : nat),
    (s < length slots)%nat ->
    nth s (scatter order depth chain slots) []
    = nth s slots [] ++ filter (fun b => (symbol depth b =? s)%nat) chain.
Proof.
  unfold scatter. induction chain as [|b chain IH]; intros slots s Hs.
  - simpl. now rewrite app_nil_r.
  - cbn [fold_left filter]. rewrite IH by now rewrite array_set_length.
    fold symbol. destruct (Nat.eqb_spec (symbol depth b) s) as [-> | Hne].
    + rewrite nth_array_set_same by exact Hs. now rewrite <- app_assoc.
    + rewrite nth_array_set_other by congruence. reflexivity.
Qed.

Lemma digest_symbol_lt (depth : nat) :
  (Z.to_nat (array_get digest depth) < 16)%nat.
Proof.
  pose proof (digestKey_symbol_range order key keyLength depth) as H.
  fold digest in H. unfold BH_INDEX_SIZE in H. lia.
Qed.

(** fetch finds [bucket] below the branch node that reindexing makes of a chain
    holding it. *)
Lemma fetch_reindexed :
  forall (fuel depth : nat) (chain : list Bucket),
    (fuel + depth = 8)%nat -> (depth < 8)%nat ->
    find_key chain = Some bucket ->
    fetchWalk fuel depth (fst (reindex fuel depth chain)) = found.
Proof.
  induction fuel as [|fuel IH]; intros depth chain Hfuel Hdepth Hfind; [lia|].
  unfold reindex, fetchWalk. cbn [reindexChain fst fetchTag].
  fold reindex. fold fetchWalk.
  set (slots := scatter order depth chain (repeat [] (Z.to_nat BH_INDEX_SIZE))).
  set (ch := Z.to_nat (array_get digest depth)).
  assert (Hch : (ch < 16)%nat) by apply digest_symbol_lt.
  assert (Hslots : length slots = 16%nat).
  { unfold slots. rewrite scatter_length, repeat_length. reflexivity. }
  rewrite map_map.
  set (child := fun sub : list Bucket => fst _).
  rewrite (nth_indep _ TNull (child [])) by (rewrite length_map; lia).
  rewrite map_nth.
  assert (Hsub : find_key (nth ch slots []) = Some bucket).
  { unfold slots. rewrite scatter_nth by (rewrite repeat_length; exact Hch).
    replace (nth ch (repeat [] (Z.to_nat BH_INDEX_SIZE)) []) with (@nil Bucket)
      by (symmetry; apply nth_repeat).
    cbn [app]. unfold find_key, chain_find. apply find_filter; [exact Hfind|].
    rewrite bucket_symbol_self. apply Nat.eqb_refl. }
  unfold child.
  destruct ((maxChainLength <? Z.of_nat (length (nth ch slots [])))
            && (S depth <? Z.to_nat BH_DIGEST_SIZE)%nat) eqn:Hcascade.
  - apply andb_prop in Hcascade. destruct Hcascade as [_ Hlt].
    apply Nat.ltb_lt in Hlt. unfold BH_DIGEST_SIZE in Hlt.
    apply IH; [lia | lia | exact Hsub].
  - cbn [fst]. destruct (nth ch slots []) as [|b sub] eqn:Hnth.
    + discriminate Hsub.
    + cbn [chain_tag]. now apply found_bucket.
Qed.

(** The round trip on one subtree. *)
Lemma store_fetch_walk :
  forall (fuel depth : nat) (tag : Tag) (stats : Stats),
    wfTag fuel tag = true -> (fuel + depth = 8)%nat ->
    fetchWalk fuel depth (fst (fst (storeWalk fuel depth tag stats))) = found.
Proof.
  induction fuel as [|fuel IH]; intros depth tag stats Hwf Hfuel;
    destruct tag as [|data|chain]; unfold storeWalk; cbn [storeTag];
    fold replace_key; fold reindex;
    try discriminate Hwf;
    try (cbn [fst]; apply found_bucket; unfold find_key, chain_find;
         cbn [find]; fold matches; now rewrite bucket_matches_self).
  - (* a chain, no symbol left *)
    destruct (replace_key chain) as [[chain' old]|] eqn:Hrep.
    + cbn [fst]. apply found_bucket. now apply (replace_key_found chain chain' old).
    + replace (depth <? Z.to_nat BH_DIGEST_SIZE)%nat with false
        by (symmetry; apply Nat.ltb_ge; unfold BH_DIGEST_SIZE; lia).
      rewrite andb_false_r. cbn [fst]. apply found_bucket.
      now apply replace_key_none.
  - (* a branch node *)
    fold storeWalk.
    set (ch := Z.to_nat (array_get digest depth)).
    assert (Hch : (ch < 16)%nat) by apply digest_symbol_lt.
    cbn [wfTag] in Hwf. apply andb_prop in Hwf. destruct Hwf as [Hlen Hall].
    apply Nat.eqb_eq in Hlen. unfold BH_INDEX_SIZE in Hlen.
    assert (Hchild : wfTag fuel (nth ch data TNull) = true).
    { rewrite forallb_forall in Hall. apply Hall. apply nth_In. lia. }
    specialize (IH (S depth) (nth ch data TNull) stats Hchild ltac:(lia)).
    destruct (storeWalk fuel (S depth) (nth ch data TNull) stats)
      as [[child stats'] res].
    cbn [fst] in *. unfold fetchWalk. cbn [fetchTag]. fold fetchWalk. fold ch.
    rewrite nth_array_set_same by lia. exact IH.
  - (* a chain *)
    destruct (replace_key chain) as [[chain' old]|] eqn:Hrep.
    + cbn [fst]. apply found_bucket. now apply (replace_key_found chain chain' old).
    + pose proof (replace_key_none chain Hrep) as Hfind.
      destruct ((maxChainLength <? Z.of_nat (length (chain ++ [bucket])))
                && (depth <? Z.to_nat BH_DIGEST_SIZE)%nat) eqn:Hover.
      * apply andb_prop in Hover. destruct Hover as [_ Hlt].
        apply Nat.ltb_lt in Hlt. unfold BH_DIGEST_SIZE in Hlt.
        pose proof (fetch_reindexed (S fuel) depth (chain ++ [bucket])
                      Hfuel ltac:(lia) Hfind) as Hre.
        destruct (reindex (S fuel) depth (chain ++ [bucket])) as [branch made].
        cbn [fst] in *. exact Hre.
      * cbn [fst]. now apply found_bucket.
Qed.

End RoundTrip.

(** ** The shape of the table is kept *)

Lemma forallb_array_set {A : Type} (p : A -> bool) (a : list A) :
  forall (i : nat) (v : A),
    forallb p a = true -> p v = true -> forallb p (array_set a i v) = true.
Proof.
  induction a as [|x a IH]; intros [|i] v Ha Hv; simpl in *; try reflexivity;
    apply andb_prop in Ha; destruct Ha as [Hx Ha]; apply andb_true_intro;
    split; auto.
Qed.

Lemma wfTag_chain_tag (fuel : nat) (chain : list Bucket) :
  wfTag fuel (chain_tag chain) = true.
Proof. destruct chain, fuel; reflexivity. Qed.

Lemma wfTag_reindexChain (order : ByteOrder) (maxChainLength : Z) :
  forall (fuel depth : nat) (chain : list Bucket),
    wfTag fuel (fst (reindexChain order maxChainLength fuel depth chain)) = true.
Proof.
  induction fuel as [|fuel IH]; intros depth chain; [reflexivity|].
  cbn [reindexChain fst wfTag]. rewrite map_map, length_map, scatter_length.
  rewrite repeat_length, Nat.eqb_refl. cbn [andb].
  apply forallb_forall. intros tag Hin. apply in_map_iff in Hin.
  destruct Hin as (sub & <- & _).
  destruct ((maxChainLength <? Z.of_nat (length sub))
            && (S depth <? Z.to_nat BH_DIGEST_SIZE)%nat).
  - apply IH.
  - cbn [fst]. now apply wfTag_chain_tag.
Qed.

Lemma wfTag_storeTag (order : ByteOrder) (sizeof_Index sizeof_Bucket : Z)
  (maxChainLength : Z) (key : list byte) (keyLength : Z) (digest : list Z)
  (bucket : Bucket) (valueLength : Z) :
  forall (fuel depth : nat) (tag : Tag) (stats : Stats),
    wfTag fuel tag = true ->
    wfTag fuel
      (fst (fst (storeTag order sizeof_Index sizeof_Bucket maxChainLength key
                   keyLength digest bucket valueLength fuel depth tag stats)))
    = true.
Proof.
  induction fuel as [|fuel IH]; intros depth tag stats Hwf;
    destruct tag as [|data|chain]; cbn [storeTag]; try discriminate Hwf;
    try reflexivity;
    try (destruct (chain_replace order key keyLength bucket chain)
           as [[chain' old]|]; [reflexivity|];
         case_cond; [|reflexivity];
         match goal with
         | |- context [reindexChain ?o ?m ?f ?d ?c] =>
             pose proof (wfTag_reindexChain o m f d c) as Hre
         end;
         case_reindex; exact Hre).
  cbn [wfTag] in Hwf. apply andb_prop in Hwf. destruct Hwf as [Hlen Hall].
  set (ch := Z.to_nat (array_get digest depth)).
  assert (Hchild : wfTag fuel (nth ch data TNull) = true).
  { destruct (nth_in_or_default ch data TNull) as [Hin | ->].
    - rewrite forallb_forall in Hall. now apply Hall.
    - destruct fuel; reflexivity. }
  specialize (IH (S depth) (nth ch data TNull) stats Hchild).
  destruct (storeTag order sizeof_Index sizeof_Bucket maxChainLength key
              keyLength digest bucket valueLength fuel (S depth)
              (nth ch data TNull) stats) as [[child stats'] res].
  cbn [fst wfTag] in *. rewrite array_set_length, Hlen. cbn [andb].
  now apply forallb_array_set.
Qed.

(** Every constructor builds a table of the right shape. *)
Lemma wfHash_init (sizeof_Index maxBuckets reindexScatter : Z) :
  wfHash (init sizeof_Index maxBuckets reindexScatter) = true.
Proof. reflexivity. Qed.

(** store keeps the shape. *)
Lemma wfHash_store (order : ByteOrder) (sizeof_Index sizeof_Bucket : Z)
  (h : Hash) (key : list byte) (keyLength : Z) (value : list byte)
  (valueLength : Z) (entryFlags : Z) :
  wfHash h = true ->
  wfHash (snd (store order sizeof_Index sizeof_Bucket h key keyLength value
                 valueLength entryFlags)) = true.
Proof.
  intros Hwf. unfold store, wfHash in *.
  match goal with
  | |- context [storeTag ?o ?si ?sb ?m ?k ?kl ?d ?b ?vl ?f ?dp ?t ?s] =>
      pose proof (wfTag_storeTag o si sb m k kl d b vl f dp t s Hwf) as Hst;
      destruct (storeTag o si sb m k kl d b vl f dp t s) as [[index' stats'] res]
  end.
  exact Hst.
Qed.

(** C1: for a key of at most 65535 bytes and a value of at most 2^32 - 1
    bytes, fetch(key) on the table that store(key, value) leaves, with no
    other mutation between, answers with status ok, a content equal to the
    value byte for byte, and a contentLength equal to the length of the
    value. *)
Theorem store_fetch_roundtrip :
  forall (order : ByteOrder) (sizeof_Index sizeof_Bucket : Z) (h : Hash)
         (key value : list byte) (entryFlags : Z),
    wfHash h = true ->
    Z.of_nat (length key) <= 65535 ->
    Z.of_nat (length value) <= 4294967295 ->
    let keyLength := Z.of_nat (length key) in
    let valueLength := Z.of_nat (length value) in
    let h' := snd (store order sizeof_Index sizeof_Bucket h key keyLength
                     value valueLength entryFlags) in
    let r := fetch order h' key keyLength in
    result r = BH_OK
    /\ content r = Some value
    /\ contentLength r = valueLength
    /\ option_map (firstn (Z.to_nat (contentLength r))) (content r) = Some value.
Proof.
  intros order szI szB h key value entryFlags Hwf Hk Hv keyLength valueLength.
  cbv zeta. unfold store, fetch.
  pose proof (store_fetch_walk order szI szB (maxBuckets h) key value
                entryFlags Hk Hv (Z.to_nat BH_DIGEST_SIZE) 0 (index h)
                (stats h) Hwf eq_refl) as Hrt.
  fold keyLength in Hrt. fold valueLength in Hrt.
  destruct (storeTag order szI szB (maxBuckets h) key keyLength
              (digestKey order key keyLength)
              {| bucket_flags := entryFlags;
                 bucket_data := entry_blob order key keyLength value valueLength |}
              valueLength (Z.to_nat BH_DIGEST_SIZE) 0 (index h) (stats h))
    as [[index' stats'] res].
  cbn [fst snd index] in *. rewrite Hrt. cbn [result content contentLength option_map].
  unfold valueLength. rewrite Nat2Z.id, firstn_all. repeat split.
Qed.

Lemma store_fetch_roundtrip_witness :
  let key := bytes_of_string [97] in
  let value := bytes_of_string [49; 50] in
  let h := snd (store LittleEndian 136 24 (Hash_new0 136) key 1 value 2 0) in
  result (fetch LittleEndian h key 1) = BH_OK
  /\ content (fetch LittleEndian h key 1) = Some value
  /\ contentLength (fetch LittleEndian h key 1) = 2.
Proof.
  destruct (store_fetch_roundtrip LittleEndian 136 24 (Hash_new0 136)
              (bytes_of_string [97]) (bytes_of_string [49; 50]) 0
              eq_refl ltac:(simpl; lia) ltac:(simpl; lia))
    as (H1 & H2 & H3 & _).
  cbv zeta. repeat split; assumption.
Defined.

(** ** Lengths out of range *)

Lemma memcmp_zero_length (s1 s2 : list byte) : memcmp s1 s2 0 = 0.
Proof. destruct s1, s2; reflexivity. Qed.







(** * Further properties of the header's code *)

(** ** The hash loop *)

Lemma digest_step_range (hash : Z) (c : byte) :
  0 <= digest_step hash c < 2 ^ 32.
Proof.
  rewrite digest_step_spec. apply Z.mod_pos_bound. lia.
Qed.

Lemma digest_loop_range (key : list byte) :
  forall (n : nat) (hash : Z),
    0 <= hash < 2 ^ 32 -> 0 <= digest_loop key n hash < 2 ^ 32.
Proof.
  induction key as [|c key IH]; intros [|n] hash Hh; simpl; try exact Hh.
  apply IH, digest_step_range.
Qed.

Lemma digest_loop_firstn (key : list byte) (n : nat) (hash : Z) :
  digest_loop key n hash = digest_loop (firstn n key) n hash.
Proof.
  rewrite !digest_loop_fold, firstn_firstn, Nat.min_id. reflexivity.
Qed.

Lemma digest_loop_concat (key1 key2 : list byte) :
  forall hash : Z,
    digest_loop (key1 ++ key2) (length key1 + length key2) hash
    = digest_loop key2 (length key2) (digest_loop key1 (length key1) hash).
Proof.
  induction key1 as [|c key1 IH]; intros hash; simpl.
  - reflexivity.
  - apply IH.
Qed.

(** One turn of the loop loses nothing of the hash: 33 is odd. *)
Lemma digest_step_inj_hash (hash1 hash2 : Z) (c : byte) :
  0 <= hash1 < 2 ^ 32 -> 0 <= hash2 < 2 ^ 32 ->
  digest_step hash1 c = digest_step hash2 c -> hash1 = hash2.
Proof.
  intros H1 H2. rewrite !digest_step_spec. intros Heq.
  assert (Hdiv : (2 ^ 32 | 33 * (hash1 - hash2))).
  { apply Z.mod_divide; [lia|].
    replace (33 * (hash1 - hash2))
      with ((hash1 * 33 + byte.unsigned c) - (hash2 * 33 + byte.unsigned c))
      by lia.
    rewrite Zminus_mod, Heq, Z.sub_diag. reflexivity. }
  apply Z.gauss in Hdiv; [|reflexivity].
  destruct Hdiv as [q Hq].
  assert (q = 0) by nia. lia.
Qed.

Lemma digest_step_inj_byte (hash : Z) (c1 c2 : byte) :
  digest_step hash c1 = digest_step hash c2 -> c1 = c2.
Proof.
  rewrite !digest_step_spec. intros Heq.
  apply byte.unsigned_inj.
  pose proof (byte.unsigned_range c1) as R1.
  pose proof (byte.unsigned_range c2) as R2.
  assert (Hdiv : (2 ^ 32 | byte.unsigned c1 - byte.unsigned c2)).
  { apply Z.mod_divide; [lia|].
    replace (byte.unsigned c1 - byte.unsigned c2)
      with ((hash * 33 + byte.unsigned c1) - (hash * 33 + byte.unsigned c2))
      by lia.
    rewrite Zminus_mod, Heq, Z.sub_diag. reflexivity. }
  destruct Hdiv as [q Hq].
  assert (q = 0) by (change (2 ^ 8) with 256 in *; nia). lia.
Qed.

Lemma digest_loop_inj (key : list byte) :
  forall (n : nat) (hash1 hash2 : Z),
    0 <= hash1 < 2 ^ 32 -> 0 <= hash2 < 2 ^ 32 ->
    digest_loop key n hash1 = digest_loop key n hash2 -> hash1 = hash2.
Proof.
  induction key as [|c key IH]; intros [|n] hash1 hash2 H1 H2 Heq;
    simpl in Heq; try exact Heq.
  apply IH in Heq; try apply digest_step_range.
  now apply digest_step_inj_hash in Heq.
Qed.

Lemma seed_range : 0 <= 5381 < 2 ^ 32.
Proof. lia. Qed.

(** ** From the digest back to the hash *)

Lemma load_store_uint_exact (order : ByteOrder) (n : nat) (z : Z) :
  load_uint order n (store_uint order n z) = z mod 2 ^ (Z.of_nat n * 8).
Proof.
  rewrite <- (app_nil_r (store_uint order n z)). apply load_store_uint.
Qed.

Lemma byte_halves (b : byte) :
  byte.of_Z (16 * (byte.unsigned b / 16) + byte.unsigned b mod 16) = b.
Proof.
  rewrite <- Z_div_mod_eq_full. apply byte.of_Z_unsigned.
Qed.

Lemma digest_hash_digestKey (order : ByteOrder) (key : list byte)
  (keyLength : Z) :
  digest_hash order (digestKey order key keyLength)
  = digest_loop key (Z.to_nat keyLength) 5381.
Proof.
  pose proof (digest_loop_range key (Z.to_nat keyLength) 5381 seed_range) as Hr.
  unfold digestKey, digest_hash.
  generalize dependent (digest_loop key (Z.to_nat keyLength) 5381).
  intros hash Hr.
  transitivity (load_uint order 4 (store_uint order 4 hash)).
  - f_equal.
    destruct order;
      cbv [store_uint le_split rev map app array_set array_get nth];
      rewrite !byte_halves; reflexivity.
  - rewrite load_store_uint_exact. apply Z.mod_small. simpl. lia.
Qed.

Lemma digestKey_eq_iff_hash (order : ByteOrder) (key1 key2 : list byte)
  (keyLength1 keyLength2 : Z) :
  digestKey order key1 keyLength1 = digestKey order key2 keyLength2
  <-> digest_loop key1 (Z.to_nat keyLength1) 5381
      = digest_loop key2 (Z.to_nat keyLength2) 5381.
Proof.
  split; intros Heq.
  - rewrite <- !(digest_hash_digestKey order). now rewrite Heq.
  - rewrite !digestKey_nibbles. now rewrite Heq.
Qed.

(** X1: digestKey reads the first [keyLength] bytes at [key] and nothing
    after them: two buffers that agree on these bytes get the same digest. *)
Theorem digestKey_reads_keyLength_bytes :
  forall (order : ByteOrder) (key1 key2 : list byte) (keyLength : Z),
    firstn (Z.to_nat keyLength) key1 = firstn (Z.to_nat keyLength) key2 ->
    digestKey order key1 keyLength = digestKey order key2 keyLength.
Proof.
  intros order key1 key2 keyLength Hpre.
  rewrite !digestKey_nibbles.
  rewrite (digest_loop_firstn key1), (digest_loop_firstn key2), Hpre.
  reflexivity.
Qed.

Lemma digestKey_reads_keyLength_bytes_witness :
  digestKey LittleEndian (bytes_of_string [97; 98; 99; 100]) 2
  = digestKey LittleEndian (bytes_of_string [97; 98; 0]) 2.
Proof.
  apply (digestKey_reads_keyLength_bytes LittleEndian
           (bytes_of_string [97; 98; 99; 100]) (bytes_of_string [97; 98; 0]) 2).
  reflexivity.
Defined.

(** X2: the hash is computed left to right and can be resumed: the loop over
    a key made of two parts is the loop over the second part started from the
    hash of the first, and the digest of the whole key is cut from that
    value. *)
Theorem digestKey_concat :
  forall (order : ByteOrder) (key1 key2 : list byte),
    digest_loop (key1 ++ key2) (length (key1 ++ key2)) 5381
    = digest_loop key2 (length key2) (digest_loop key1 (length key1) 5381)
    /\ digest_hash order
         (digestKey order (key1 ++ key2) (Z.of_nat (length (key1 ++ key2))))
       = digest_loop key2 (length key2)
           (digest_hash order (digestKey order key1 (Z.of_nat (length key1)))).
Proof.
  intros order key1 key2.
  rewrite !digest_hash_digestKey, !Nat2Z.id, length_app.
  split; apply digest_loop_concat.
Qed.

(** X3: the 32-bit hash of digestKey stays below 2^32 and the 8 symbols carry
    all of it: joining symbol i and symbol i+4 into byte i and reading the
    four bytes as a uint32_t gives the hash back.  Hence two keys get the same
    digest exactly when their 32-bit hashes are equal. *)
Theorem digest_carries_whole_hash :
  forall (order : ByteOrder) (key1 key2 : list byte) (keyLength1 keyLength2 : Z),
    0 <= digest_loop key1 (Z.to_nat keyLength1) 5381 < 2 ^ 32
    /\ digest_hash order (digestKey order key1 keyLength1)
       = digest_loop key1 (Z.to_nat keyLength1) 5381
    /\ (digestKey order key1 keyLength1 = digestKey order key2 keyLength2
        <-> digest_loop key1 (Z.to_nat keyLength1) 5381
            = digest_loop key2 (Z.to_nat keyLength2) 5381).
Proof.
  intros order key1 key2 keyLength1 keyLength2.
  split; [apply digest_loop_range, seed_range|].
  split; [apply digest_hash_digestKey | apply digestKey_eq_iff_hash].
Qed.

(** X4: two keys that differ in exactly one byte never get the same digest. *)
Theorem digestKey_one_byte_apart :
  forall (order : ByteOrder) (before after : list byte) (a b : byte),
    a <> b ->
    digestKey order (before ++ a :: after)
      (Z.of_nat (length (before ++ a :: after)))
    <> digestKey order (before ++ b :: after)
         (Z.of_nat (length (before ++ b :: after))).
Proof.
  intros order before after a b Hab Heq.
  apply digestKey_eq_iff_hash in Heq. rewrite !Nat2Z.id in Heq.
  rewrite !length_app in Heq. rewrite !digest_loop_concat in Heq.
  simpl in Heq.
  apply digest_loop_inj in Heq; try apply digest_step_range.
  apply digest_step_inj_byte in Heq. contradiction.
Qed.

Lemma digestKey_one_byte_apart_witness :
  digestKey BigEndian (bytes_of_string [107; 49; 120]) 3
  <> digestKey BigEndian (bytes_of_string [107; 50; 120]) 3.
Proof.
  apply (digestKey_one_byte_apart BigEndian (bytes_of_string [107])
           (bytes_of_string [120]) (byte.of_Z 49) (byte.of_Z 50)).
  intros H. apply (f_equal byte.unsigned) in H. vm_compute in H. discriminate.
Defined.

(** X5: a common ending neither makes nor removes a collision: two keys
    followed by the same bytes get the same digest exactly when the two keys
    themselves do. *)
Theorem digestKey_common_suffix :
  forall (order : ByteOrder) (key1 key2 suffix : list byte),
    digestKey order (key1 ++ suffix) (Z.of_nat (length (key1 ++ suffix)))
    = digestKey order (key2 ++ suffix) (Z.of_nat (length (key2 ++ suffix)))
    <-> digestKey order key1 (Z.of_nat (length key1))
        = digestKey order key2 (Z.of_nat (length key2)).
Proof.
  intros order key1 key2 suffix.
  rewrite !digestKey_eq_iff_hash, !Nat2Z.id, !length_app.
  rewrite !digest_loop_concat. split; intros Heq.
  - apply digest_loop_inj in Heq; [exact Heq | |];
      apply digest_loop_range, seed_range.
  - now rewrite Heq.
Qed.

(** ** Key comparison *)

Lemma memcmp_firstn (s1 s2 : list byte) :
  forall n : nat, memcmp s1 s2 n = memcmp (firstn n s1) (firstn n s2) n.
Proof.
  revert s2. induction s1 as [|a s1 IH]; intros s2 [|n];
    try (destruct s2; reflexivity).
  destruct s2 as [|b s2]; [reflexivity|]. simpl.
  destruct (byte.unsigned a =? byte.unsigned b); [apply IH | reflexivity].
Qed.

Lemma memcmp_zero_firstn (s1 s2 : list byte) :
  forall n : nat,
    (n <= length s1)%nat -> (n <= length s2)%nat ->
    memcmp s1 s2 n = 0 -> firstn n s1 = firstn n s2.
Proof.
  revert s2. induction s1 as [|a s1 IH]; intros s2 [|n] H1 H2 Hz;
    try reflexivity; simpl in H1; try lia.
  destruct s2 as [|b s2]; [simpl in H2; lia|]. simpl in H2, Hz. simpl.
  destruct (Z.eqb_spec (byte.unsigned a) (byte.unsigned b)) as [Hab | Hab].
  - apply byte.unsigned_inj in Hab. subst b. f_equal. apply IH; [lia | lia | exact Hz].
  - lia.
Qed.

Lemma bucketKeyEquals_nonzero (order : ByteOrder) (bucketData key : list byte)
  (keyLength : Z) :
  bucketKeyEquals order bucketData key keyLength <> 0 ->
  keyLength = bucketGetKeyLength order bucketData
  /\ memcmp key (bucketGetKey bucketData) (Z.to_nat keyLength) = 0.
Proof.
  unfold bucketKeyEquals, bucketGetKey.
  destruct (Z.eqb_spec keyLength (bucketGetKeyLength order bucketData));
    cbn [negb]; [|congruence].
  destruct (Z.eqb_spec
              (memcmp key (skipn (Z.to_nat BH_KLEN_SIZE) bucketData)
                 (Z.to_nat keyLength)) 0); [tauto | congruence].
Qed.

(** X6: with keyLength = 0 bucketKeyEquals compares no byte: the empty probe
    matches exactly the entries whose stored key length is 0, whatever lies at
    [key] and whatever the blob holds after its length field. *)
Theorem bucketKeyEquals_empty_probe :
  forall (order : ByteOrder) (bucketData key : list byte),
    bucketKeyEquals order bucketData key 0
    = (if bucketGetKeyLength order bucketData =? 0 then 1 else 0).
Proof.
  intros order bucketData key. unfold bucketKeyEquals.
  change (Z.to_nat 0) with 0%nat. rewrite memcmp_zero_length.
  rewrite Z.eqb_sym.
  destruct (bucketGetKeyLength order bucketData =? 0); reflexivity.
Qed.

(** X7: bucketKeyEquals reads the length field and the key bytes of the blob
    and [keyLength] bytes of the probe, nothing else: its answer is the same
    on two blobs that agree on their first 2 + keyLength bytes and two probes
    that agree on their first keyLength bytes.  The value bytes of an entry
    never take part in a key comparison. *)
Theorem bucketKeyEquals_reads_key_only :
  forall (order : ByteOrder) (bucketData1 bucketData2 key1 key2 : list byte)
         (keyLength : Z),
    0 <= keyLength ->
    firstn (Z.to_nat (BH_KLEN_SIZE + keyLength)) bucketData1
    = firstn (Z.to_nat (BH_KLEN_SIZE + keyLength)) bucketData2 ->
    firstn (Z.to_nat keyLength) key1 = firstn (Z.to_nat keyLength) key2 ->
    bucketKeyEquals order bucketData1 key1 keyLength
    = bucketKeyEquals order bucketData2 key2 keyLength.
Proof.
  intros order d1 d2 key1 key2 keyLength Hk Hd Hp.
  replace (Z.to_nat (BH_KLEN_SIZE + keyLength))
    with (2 + Z.to_nat keyLength)%nat in Hd by (unfold BH_KLEN_SIZE; lia).
  assert (Hlen : bucketGetKeyLength order d1 = bucketGetKeyLength order d2).
  { unfold bucketGetKeyLength, load_uint.
    assert (H2 : firstn 2 d1 = firstn 2 d2).
    { apply (f_equal (firstn 2)) in Hd. rewrite !firstn_firstn in Hd.
      now replace (Nat.min 2 (2 + Z.to_nat keyLength)) with 2%nat in Hd by lia. }
    now rewrite H2. }
  unfold bucketKeyEquals. rewrite Hlen.
  destruct (negb (keyLength =? bucketGetKeyLength order d2)); [reflexivity|].
  rewrite (memcmp_firstn key1), (memcmp_firstn key2).
  change (Z.to_nat BH_KLEN_SIZE) with 2%nat.
  rewrite !firstn_skipn_comm, Hd, Hp. reflexivity.
Qed.

Lemma bucketKeyEquals_reads_key_only_witness :
  bucketKeyEquals LittleEndian
    (entry_blob LittleEndian (bytes_of_string [107; 101; 121]) 3
       (bytes_of_string [49]) 1)
    (bytes_of_string [107; 101; 121; 0]) 3
  = bucketKeyEquals LittleEndian
      (entry_blob LittleEndian (bytes_of_string [107; 101; 121]) 3
         (bytes_of_string [50; 51]) 2)
      (bytes_of_string [107; 101; 121]) 3.
Proof.
  apply (bucketKeyEquals_reads_key_only LittleEndian
           (entry_blob LittleEndian (bytes_of_string [107; 101; 121]) 3
              (bytes_of_string [49]) 1)
           (entry_blob LittleEndian (bytes_of_string [107; 101; 121]) 3
              (bytes_of_string [50; 51]) 2)
           (bytes_of_string [107; 101; 121; 0])
           (bytes_of_string [107; 101; 121]) 3);
    [lia | reflexivity | reflexivity].
Defined.

(** X8: an entry answers to one key only: when two probes, each of its full
    length, both compare equal to the same blob, they are the same key.  The
    blob holds the key its length field announces. *)
Theorem bucketKeyEquals_one_key_per_entry :
  forall (order : ByteOrder) (bucketData key1 key2 : list byte),
    BH_KLEN_SIZE + bucketGetKeyLength order bucketData
    <= Z.of_nat (length bucketData) ->
    bucketKeyEquals order bucketData key1 (Z.of_nat (length key1)) <> 0 ->
    bucketKeyEquals order bucketData key2 (Z.of_nat (length key2)) <> 0 ->
    key1 = key2.
Proof.
  intros order bucketData key1 key2 Hblob H1 H2.
  apply bucketKeyEquals_nonzero in H1. apply bucketKeyEquals_nonzero in H2.
  destruct H1 as [Hl1 Hm1]. destruct H2 as [Hl2 Hm2].
  rewrite Nat2Z.id in Hm1, Hm2.
  assert (Hkey : forall n : nat,
             Z.of_nat n = bucketGetKeyLength order bucketData ->
             (n <= length (bucketGetKey bucketData))%nat).
  { intros n Hn. unfold bucketGetKey. rewrite length_skipn.
    unfold BH_KLEN_SIZE in *. lia. }
  apply memcmp_zero_firstn in Hm1; [|lia | now apply Hkey].
  apply memcmp_zero_firstn in Hm2; [|lia | now apply Hkey].
  rewrite firstn_all in Hm1, Hm2.
  assert (Hn : length key1 = length key2) by lia.
  rewrite Hm1, Hm2, Hn. reflexivity.
Qed.

Lemma bucketKeyEquals_one_key_per_entry_witness :
  bytes_of_string [107; 101; 121] = map byte.of_Z [107; 101; 121].
Proof.
  apply (bucketKeyEquals_one_key_per_entry LittleEndian
           (entry_blob LittleEndian (bytes_of_string [107; 101; 121]) 3
              (bytes_of_string [118]) 1)
           (bytes_of_string [107; 101; 121]) (map byte.of_Z [107; 101; 121]));
    vm_compute; discriminate.
Defined.

(** X9: on stored entries bucketKeyEquals decides key equality: for keys of at
    most 65535 bytes, the blob of an entry with key [key1] compares equal (1)
    to the probe [key2] when the keys are equal and unequal (0) when they are
    not, whatever value the entry holds. *)
Theorem bucketKeyEquals_decides_key_equality :
  forall (order : ByteOrder) (key1 key2 value : list byte),
    Z.of_nat (length key1) <= 65535 ->
    Z.of_nat (length key2) <= 65535 ->
    let blob := entry_blob order key1 (Z.of_nat (length key1)) value
                  (Z.of_nat (length value)) in
    (key1 = key2 -> bucketKeyEquals order blob key2 (Z.of_nat (length key2)) = 1)
    /\ (key1 <> key2 ->
        bucketKeyEquals order blob key2 (Z.of_nat (length key2)) = 0).
Proof.
  intros order key1 key2 value Hk1 Hk2 blob.
  assert (Hkl : bucketGetKeyLength order blob = Z.of_nat (length key1))
    by now apply blob_key_length.
  assert (Hkey : skipn (Z.to_nat BH_KLEN_SIZE) blob
                 = key1 ++ store_uint order 4 (Z.of_nat (length value)) ++ value)
    by apply blob_key.
  unfold bucketKeyEquals. rewrite Hkl, Hkey, Nat2Z.id. split.
  - intros <-. rewrite Z.eqb_refl, memcmp_prefix. reflexivity.
  - intros Hne.
    destruct (Z.eqb_spec (Z.of_nat (length key2)) (Z.of_nat (length key1)))
      as [Hlen | Hlen]; cbn [negb]; [|reflexivity].
    destruct (Z.eqb_spec
                (memcmp key2
                   (key1 ++ store_uint order 4 (Z.of_nat (length value)) ++ value)
                   (length key2)) 0) as [Hz | Hz]; [|reflexivity].
    exfalso. apply Hne.
    apply memcmp_zero_firstn in Hz; [|lia | rewrite length_app; lia].
    rewrite firstn_all in Hz.
    rewrite (firstn_length_app key1 _ (length key2)) in Hz by lia.
    congruence.
Qed.

Lemma bucketKeyEquals_decides_key_equality_witness :
  bucketKeyEquals BigEndian
    (entry_blob BigEndian (bytes_of_string [97; 98]) 2 (bytes_of_string [49]) 1)
    (bytes_of_string [97; 98]) 2 = 1
  /\ bucketKeyEquals BigEndian
       (entry_blob BigEndian (bytes_of_string [97; 98]) 2 (bytes_of_string [49]) 1)
       (bytes_of_string [97]) 1 = 0.
Proof.
  split.
  - apply (bucketKeyEquals_decides_key_equality BigEndian
             (bytes_of_string [97; 98]) (bytes_of_string [97; 98])
             (bytes_of_string [49]));
      [simpl; lia | simpl; lia | reflexivity].
  - apply (bucketKeyEquals_decides_key_equality BigEndian
             (bytes_of_string [97; 98]) (bytes_of_string [97])
             (bytes_of_string [49]));
      [simpl; lia | simpl; lia | ].
    intros H. apply (f_equal (@length byte)) in H. discriminate.
Defined.

(** ** Blob accessors on any blob *)

(** X10: whatever bytes a blob holds, bucketGetKeyLength answers a value of
    0..65535 and bucketGetContentLength one of 0..2^32-1, the content starts
    keyLength + BH_LEN_SIZE bytes after the key, and the key starts
    BH_KLEN_SIZE bytes into the blob. *)
Theorem accessors_on_any_blob :
  forall (order : ByteOrder) (bucketData : list byte),
    0 <= bucketGetKeyLength order bucketData <= 65535
    /\ 0 <= bucketGetContentLength order bucketData <= 4294967295
    /\ bucketGetContent order bucketData
       = skipn (Z.to_nat (bucketGetKeyLength order bucketData + BH_LEN_SIZE))
           (bucketGetKey bucketData)
    /\ Z.of_nat (length (bucketGetKey bucketData))
       = Z.max 0 (Z.of_nat (length bucketData) - BH_KLEN_SIZE).
Proof.
  intros order bucketData.
  pose proof (load_uint_range order 2 bucketData) as Hk.
  pose proof (load_uint_range order 4
                (skipn (Z.to_nat (BH_KLEN_SIZE
                                  + bucketGetKeyLength order bucketData))
                   bucketData)) as Hc.
  fold (bucketGetKeyLength order bucketData) in Hk.
  fold (bucketGetContentLength order bucketData) in Hc.
  change (2 ^ (8 * Z.of_nat 2)) with 65536 in Hk.
  change (2 ^ (8 * Z.of_nat 4)) with 4294967296 in Hc.
  split; [lia|]. split; [lia|]. split.
  - unfold bucketGetContent, bucketGetKey. rewrite skipn_skipn.
    f_equal. unfold BH_KLEN_SIZE, BH_LEN_SIZE. lia.
  - unfold bucketGetKey. rewrite length_skipn. unfold BH_KLEN_SIZE. lia.
Qed.

(** X11: on an entry laid out as [keyLength][keyBytes][valueLength]
    [valueBytes] the accessors agree with one another and with the size of
    the blob: the bytes at bucketGetContent are bucketGetContentLength many,
    the key region is followed by BH_LEN_SIZE + bucketGetContentLength bytes,
    and the blob is BH_KLEN_SIZE + keyLength + BH_LEN_SIZE + contentLength
    bytes long. *)
Theorem accessors_account_for_the_blob :
  forall (order : ByteOrder) (key value : list byte),
    Z.of_nat (length key) <= 65535 ->
    Z.of_nat (length value) <= 4294967295 ->
    let blob := entry_blob order key (Z.of_nat (length key)) value
                  (Z.of_nat (length value)) in
    Z.of_nat (length (bucketGetContent order blob))
    = bucketGetContentLength order blob
    /\ Z.of_nat (length (bucketGetKey blob))
       = bucketGetKeyLength order blob + BH_LEN_SIZE
         + bucketGetContentLength order blob
    /\ Z.of_nat (length blob)
       = BH_KLEN_SIZE + bucketGetKeyLength order blob + BH_LEN_SIZE
         + bucketGetContentLength order blob.
Proof.
  intros order key value Hk Hv blob. subst blob.
  rewrite blob_content, blob_content_length, blob_key_length, blob_key
    by assumption.
  rewrite entry_blob_eq, !length_app, !store_uint_length.
  unfold BH_KLEN_SIZE, BH_LEN_SIZE. repeat split; lia.
Qed.

Lemma accessors_account_for_the_blob_witness :
  Z.of_nat (length (entry_blob LittleEndian (bytes_of_string [107; 101; 121]) 3
                      (bytes_of_string [118; 97]) 2))
  = BH_KLEN_SIZE + 3 + BH_LEN_SIZE + 2.
Proof.
  destruct (accessors_account_for_the_blob LittleEndian
              (bytes_of_string [107; 101; 121]) (bytes_of_string [118; 97])
              ltac:(simpl; lia) ltac:(simpl; lia)) as (_ & _ & H).
  etransitivity; [exact H|]. vm_compute. reflexivity.
Defined.

(** ** Constructors *)

(** X12: the default arguments are what the shorter constructors use: Hash()
    builds the table of Hash(16) and of Hash(16, 1), and Hash(m) builds the
    table of Hash(m, 1), for every unsigned char m. *)
Theorem constructors_agree :
  forall (sizeof_Index newMaxBuckets : Z),
    0 <= newMaxBuckets <= 255 ->
    Hash_new0 sizeof_Index = Hash_new1 sizeof_Index 16
    /\ Hash_new0 sizeof_Index = Hash_new2 sizeof_Index 16 1
    /\ Hash_new1 sizeof_Index newMaxBuckets
       = Hash_new2 sizeof_Index newMaxBuckets 1.
Proof.
  intros szI m Hm. split; [reflexivity|]. split; [reflexivity|].
  unfold Hash_new1, Hash_new2. cbv zeta.
  change (1 <? 1) with false. cbv iota.
  rewrite Z.gtb_ltb.
  destruct (Z.ltb_spec m 1); destruct (Z.ltb_spec 256 (1 + 1));
    try lia; try reflexivity.
  destruct (Z.ltb_spec 256 (m + 1)); [lia | reflexivity].
Qed.

Lemma constructors_agree_witness :
  Hash_new1 136 0 = Hash_new2 136 0 1
  /\ Hash_new1 136 255 = Hash_new2 136 255 1.
Proof.
  split.
  - apply (constructors_agree 136 0). lia.
  - apply (constructors_agree 136 255). lia.
Defined.

(** X13: the two-argument constructor leaves a configuration that fits its
    unsigned char members without truncation, both values in 1..255, and that
    it accepts as it is: constructing again from the stored maxBuckets and
    reindexScatter gives the same table. *)
Theorem constructor_normalises :
  forall (sizeof_Index newMaxBuckets newReindexScatter : Z),
    0 <= newMaxBuckets <= 255 ->
    0 <= newReindexScatter <= 255 ->
    let h := Hash_new2 sizeof_Index newMaxBuckets newReindexScatter in
    1 <= maxBuckets h <= 255
    /\ 1 <= reindexScatter h <= 255
    /\ Hash_new2 sizeof_Index (maxBuckets h) (reindexScatter h) = h.
Proof.
  intros szI m r Hm Hr. cbv zeta.
  unfold Hash_new2, init. cbn [maxBuckets reindexScatter].
  rewrite !Z.gtb_ltb.
  repeat match goal with
         | |- context [?a <? ?b] =>
             lazymatch a with
             | context [if _ then _ else _] => fail
             | _ =>
                 lazymatch b with
                 | context [if _ then _ else _] => fail
                 | _ => destruct (Z.ltb_spec a b); try lia
                 end
             end
         end;
    repeat split; try lia; try reflexivity.
Qed.

Lemma constructor_normalises_witness :
  let h := Hash_new2 136 255 255 in
  1 <= maxBuckets h <= 255 /\ 1 <= reindexScatter h <= 255
  /\ Hash_new2 136 (maxBuckets h) (reindexScatter h) = h.
Proof.
  apply (constructor_normalises 136 255 255); lia.
Defined.
